(** * LoRa node 1 (CircuitPython): the send/receive loop of [code.py]

    A shallow embedding of [lora/CircuitPython/node1/code.py].  The script
    drives three devices (an RFM9x radio, an SSD1306 display and a LED) and
    reads the monotonic clock.  The devices and the clock are the
    environment: what they answer is given by an [Env], what the script asks
    of them is recorded as a list of [event]s, and the script itself is
    written in a small state-and-output monad over a [World] holding the
    module globals and the attributes of the device objects.  Clock values
    are floats; the one float operation of the script, the subtraction of
    line 103, is the exact difference rounded by the [Rounding] of the
    platform. *)

From Stdlib Require Import ZArith QArith Qround Qpower List String Ascii Strings.Byte.
From Stdlib Require Import DecimalString DecimalZ DecimalPos Bool Lia Lqa.
From stdpp Require Import base list.
Import ListNotations.

Local Open Scope Z_scope.

(** ** Python builtins used by the script *)

Module Py.

(** [str(i)] / ["{}".format(i)] for an integer: decimal, with a leading
    minus sign for negative values. *)
Definition str_int (i : Z) : string :=
  NilZero.string_of_int (Z.to_int i).

(** [bytes(s, "UTF-8")].  Every string the script encodes is ASCII (fixed
    words and decimal numerals), for which UTF-8 is one byte per
    character. *)
Definition encode_utf8 (s : string) : list byte :=
  list_byte_of_string s.

Definition hex_digit (n : N) : ascii :=
  match n with
  | 0%N => "0" | 1%N => "1" | 2%N => "2" | 3%N => "3"
  | 4%N => "4" | 5%N => "5" | 6%N => "6" | 7%N => "7"
  | 8%N => "8" | 9%N => "9" | 10%N => "a" | 11%N => "b"
  | 12%N => "c" | 13%N => "d" | 14%N => "e" | _ => "f"
  end%char.

(** [hex(x)] for an element [x] of a bytearray (0 <= x < 256): lower case,
    no padding. *)
Definition hex (x : byte) : string :=
  let n := Byte.to_N x in
  String "0" (String "x"
    (if (n <? 16)%N then String (hex_digit n) EmptyString
     else String (hex_digit (n / 16)) (String (hex_digit (n mod 16)) EmptyString))).

Definition has_byte (c : byte) (bs : list byte) : bool :=
  existsb (Byte.eqb c) bs.

(** The quote of a bytes literal: a single quote, unless the data holds a
    single quote and no double quote. *)
Definition quote_of (bs : list byte) : byte :=
  if has_byte x27 bs && negb (has_byte x22 bs) then x22 else x27.

Definition chr (b : byte) : string := String (ascii_of_byte b) EmptyString.

(** One byte of a bytes literal. *)
Definition escape (q b : byte) : string :=
  let n := Byte.to_N b in
  if Byte.eqb b q then (chr x5c ++ chr q)%string
  else if Byte.eqb b x5c then (chr x5c ++ chr x5c)%string
  else if ((32 <=? n) && (n <? 127))%N then chr b
  else if Byte.eqb b x0a then (chr x5c ++ "n")%string
  else if Byte.eqb b x0d then (chr x5c ++ "r")%string
  else if Byte.eqb b x09 then (chr x5c ++ "t")%string
  else (chr x5c ++ "x" ++
        String (hex_digit (n / 16)) (String (hex_digit (n mod 16)) EmptyString))%string.

(** [str(b)] / ["{0}".format(b)] for [b : bytes]: the literal [b'...']. *)
Definition str_bytes (bs : list byte) : string :=
  let q := quote_of bs in
  ("b" ++ chr q ++ String.concat EmptyString (map (escape q) bs) ++ chr q)%string.

(** ["{0}".format(b)] for [b : bytearray], as CircuitPython prints it: the
    bytes literal in [bytearray(...)].  It is used for the console line of
    line 88 only. *)
Definition str_bytearray (bs : list byte) : string :=
  ("bytearray(" ++ str_bytes bs ++ ")")%string.

(** [str(l)] for a list of strings without quotes or escapes in them (here:
    the outputs of [hex]). *)
Definition str_list (l : list string) : string :=
  ("[" ++ String.concat ", " (map (fun s => chr x27 ++ s ++ chr x27) l) ++ "]")%string.

End Py.

(** ** Devices, environment and state *)

(** [displayio.Bitmap(width, height, value_count)]. *)
Record Bitmap := { bm_width : Z; bm_height : Z; bm_values : Z }.

(** What a [displayio.Group] holds.  A [displayio.Palette] is the list of its
    colours; a [label.Label] is a line of text in the terminal font. *)
Inductive element :=
| TileGrid (bitmap : Bitmap) (pixel_shader : list Z) (x y : Z)
| Label (text : string) (color : Z) (x y : Z).

(** The calls the script makes on the devices, the clock and the console. *)
Inductive event :=
| EGroup (g : nat)                               (* displayio.Group() *)
| EShow (g : nat) (content : list element)        (* display.show(g), with what g holds then *)
| EAppend (g : nat) (x : element)                 (* g.append(x) *)
| ELed (value : bool)                             (* led.value = value *)
| EReceive (with_header : bool) (r : option (list byte))  (* rfm9x.receive(...) returned r *)
| EPrint (line : string)                          (* print(...) *)
| ERefresh                                        (* display.refresh() *)
| ESleep (secs : Q)                               (* time.sleep(secs) *)
| EMonotonic (t : Q)                              (* time.monotonic() returned t *)
| ESend (data : list byte) (keep_listening : bool). (* rfm9x.send(data, ...) *)

(** Modelled from the spec: the type of the radio's [last_rssi] attribute.
    The [adafruit_rfm9x] driver is not among the sources; the specification
    gives its RSSI accessor as returning a signed integer. *)
Definition rssi_value : Type := Z.

(** The environment: the value of the monotonic clock at its k-th reading,
    and, for the k-th call of [rfm9x.receive], the packet it returns ([None]
    when the driver's timeout passes; with [with_header=True] the first four
    bytes are the header) together with the value the radio's [last_rssi]
    attribute has afterwards.  Clock values are seconds, as rationals: every
    float is one. *)
Record Env := {
  monotonic_at : nat -> Q;
  receive_at : nat -> option (list byte) * rssi_value
}.

(** The module globals that live across iterations ([now], [counter]), the
    attributes of the device objects, the heap of [displayio.Group] objects (a
    reference is an index into [groups]; the script never holds a dangling
    one) and how many times the clock and the radio have been asked.  The
    per-iteration names ([splash], [packet], [text3], ...) are bound
    afresh in every iteration and are local to [loop_body] below. *)
Record World := {
  now : Q;
  counter : Z;
  node : Z;
  destination : Z;
  last_rssi : rssi_value;
  led_value : bool;
  groups : list (list element);
  root_group : option nat;
  clock_reads : nat;
  polls : nat
}.

(** The state before line 52: nothing bound yet, no group allocated, nothing
    shown ([displayio.release_displays()]). *)
Definition boot : World :=
  {| now := 0; counter := 0; node := 0; destination := 0; last_rssi := 0;
     led_value := false; groups := []; root_group := None;
     clock_reads := 0; polls := 0 |}.

(** ** The monad of the script: state and output *)

Definition M (A : Type) : Type := World -> A * World * list event.

Definition ret {A} (a : A) : M A := fun w => (a, w, []).

Definition bind {A B} (m : M A) (k : A -> M B) : M B :=
  fun w =>
    let '(a, w1, t1) := m w in
    let '(b, w2, t2) := k a w1 in
    (b, w2, t1 ++ t2).

Notation "x <- m ;; k" := (bind m (fun x => k))
  (at level 100, m at next level, right associativity).
Notation "m ;; k" := (bind m (fun _ => k))
  (at level 100, right associativity).

Definition world_of {A} (r : A * World * list event) : World := snd (fst r).
Definition events_of {A} (r : A * World * list event) : list event := snd r.

Definition get {A} (f : World -> A) : M A := fun w => (f w, w, []).
Definition modify (f : World -> World) : M unit := fun w => (tt, f w, []).
Definition emit (ev : event) : M unit := fun w => (tt, w, [ev]).

Definition set_now (t : Q) (w : World) : World :=
  {| now := t; counter := counter w; node := node w; destination := destination w;
     last_rssi := last_rssi w; led_value := led_value w; groups := groups w;
     root_group := root_group w; clock_reads := clock_reads w; polls := polls w |}.

Definition set_counter (c : Z) (w : World) : World :=
  {| now := now w; counter := c; node := node w; destination := destination w;
     last_rssi := last_rssi w; led_value := led_value w; groups := groups w;
     root_group := root_group w; clock_reads := clock_reads w; polls := polls w |}.

Definition set_node (n : Z) (w : World) : World :=
  {| now := now w; counter := counter w; node := n; destination := destination w;
     last_rssi := last_rssi w; led_value := led_value w; groups := groups w;
     root_group := root_group w; clock_reads := clock_reads w; polls := polls w |}.

Definition set_destination (d : Z) (w : World) : World :=
  {| now := now w; counter := counter w; node := node w; destination := d;
     last_rssi := last_rssi w; led_value := led_value w; groups := groups w;
     root_group := root_group w; clock_reads := clock_reads w; polls := polls w |}.

Definition set_radio (rssi : Z) (w : World) : World :=
  {| now := now w; counter := counter w; node := node w; destination := destination w;
     last_rssi := rssi; led_value := led_value w; groups := groups w;
     root_group := root_group w; clock_reads := clock_reads w; polls := S (polls w) |}.

Definition set_led (b : bool) (w : World) : World :=
  {| now := now w; counter := counter w; node := node w; destination := destination w;
     last_rssi := last_rssi w; led_value := b; groups := groups w;
     root_group := root_group w; clock_reads := clock_reads w; polls := polls w |}.

Definition set_groups (gs : list (list element)) (w : World) : World :=
  {| now := now w; counter := counter w; node := node w; destination := destination w;
     last_rssi := last_rssi w; led_value := led_value w; groups := gs;
     root_group := root_group w; clock_reads := clock_reads w; polls := polls w |}.

Definition set_root (g : nat) (w : World) : World :=
  {| now := now w; counter := counter w; node := node w; destination := destination w;
     last_rssi := last_rssi w; led_value := led_value w; groups := groups w;
     root_group := Some g; clock_reads := clock_reads w; polls := polls w |}.

Definition tick (w : World) : World :=
  {| now := now w; counter := counter w; node := node w; destination := destination w;
     last_rssi := last_rssi w; led_value := led_value w; groups := groups w;
     root_group := root_group w; clock_reads := S (clock_reads w); polls := polls w |}.

(** ** The device calls *)

(** [displayio.Group()]: a new, empty group; its reference is returned. *)
Definition displayio_Group : M nat :=
  g <- get (fun w => length (groups w)) ;;
  modify (fun w => set_groups (groups w ++ [[]]) w) ;;
  emit (EGroup g) ;;
  ret g.

(** [g.append(x)]: the group object is changed in place, so whoever holds
    the reference [g] (the display, after [show]) sees the new element. *)
Definition group_append (g : nat) (x : element) : M unit :=
  modify (fun w => set_groups (alter (fun l => l ++ [x]) g (groups w)) w) ;;
  emit (EAppend g x).

Definition content (g : nat) (w : World) : list element :=
  default [] (groups w !! g).

(** [display.show(g)]: [g] becomes the root group of the display. *)
Definition display_show (g : nat) : M unit :=
  c <- get (content g) ;;
  modify (set_root g) ;;
  emit (EShow g c).

Definition display_refresh : M unit := emit ERefresh.

Definition led_set (b : bool) : M unit :=
  modify (set_led b) ;; emit (ELed b).

Definition print (line : string) : M unit := emit (EPrint line).

Definition time_sleep (secs : Q) : M unit := emit (ESleep secs).

Definition time_monotonic (e : Env) : M Q :=
  t <- get (fun w => monotonic_at e (clock_reads w)) ;;
  modify tick ;;
  emit (EMonotonic t) ;;
  ret t.

Definition rfm9x_receive (e : Env) (with_header : bool) : M (option (list byte)) :=
  r <- get (fun w => receive_at e (polls w)) ;;
  modify (set_radio (snd r)) ;;
  emit (EReceive with_header (fst r)) ;;
  ret (fst r).

Definition rfm9x_send (data : list byte) (keep_listening : bool) : M unit :=
  emit (ESend data keep_listening).

(** ** Float arithmetic *)

(** The nearest integer, ties to even. *)
Definition nearest_even (s : Q) : Z :=
  let f := Qfloor s in
  match (s - inject_Z f ?= 1 # 2)%Q with
  | Lt => f
  | Gt => f + 1
  | Eq => if Z.even f then f else f + 1
  end.

(** The binade of a positive number [x]: the [e] with 2^e <= x < 2^(e+1). *)
Definition binade (x : Q) : Z :=
  let e := Z.log2 (Qnum x) - Z.log2 (Z.pos (Qden x)) in
  if Qle_bool (2 ^ e) x then e else e - 1.

(** The float of [p] significant bits nearest to a positive number. *)
Definition round_pos (p : Z) (x : Q) : Q :=
  let u := binade x - p + 1 in
  (inject_Z (nearest_even (x / 2 ^ u)) * 2 ^ u)%Q.

(** Round to nearest, ties to even, with [p] significant bits and no bound
    on the exponent (clock values are far from overflow and underflow). *)
Definition round_float (p : Z) (x : Q) : Q :=
  match Qnum x with
  | Z0 => 0%Q
  | Zpos _ => round_pos p x
  | Zneg _ => (- round_pos p (- x))%Q
  end.

(** What the script needs of the float arithmetic of its platform.  The
    float result of an operation is the exact result rounded; rounding keeps
    the order of its arguments and leaves 1 and 2, which are floats, as they
    are.  Round to nearest at any precision is such a rounding
    ([round_float]: 53 bits under CPython, fewer on CircuitPython builds). *)
Class Rounding := {
  rnd : Q -> Q;
  rnd_mono : forall x y : Q, (x <= y)%Q -> (rnd x <= rnd y)%Q;
  rnd_one : (rnd 1 == 1)%Q;
  rnd_two : (rnd 2 == 2)%Q
}.

Section Script.

Context {fl : Rounding}.

(** ** The script *)

Definition WIDTH : Z := 128.
Definition HEIGHT : Z := 64.
Definition BORDER : Z := 5.

(** Line 32: the time interval (seconds) for sending packets. *)
Definition transmit_interval : Q := 1.

(** [a > b] on clock values. *)
Definition Qgtb (a b : Q) : bool := negb (Qle_bool a b).

(** Lines 52-65: the node addresses, the counter, the startup message, the
    first value of [now], the LED. *)
Definition startup (e : Env) : M unit :=
  modify (set_node 1) ;;
  modify (set_destination 2) ;;
  modify (set_counter 0) ;;
  c <- get counter ;;
  n <- get node ;;
  rfm9x_send
    (Py.encode_utf8
       ("Startup message " ++ Py.str_int c ++ " from node " ++ Py.str_int n)%string)
    false ;;
  print "Waiting for packets..." ;;
  t <- time_monotonic e ;;
  modify (set_now t) ;;
  led_set true.

(** Lines 85-102: what is done with a received packet. *)
Definition on_packet (splash : nat) (packet : list byte) : M unit :=
  print ("Received (raw header): " ++ Py.str_list (map Py.hex (take 4 packet)))%string ;;
  print ("Received (raw payload): " ++ Py.str_bytearray (drop 4 packet))%string ;;
  let text3 := Py.str_bytes (drop 4 packet) in
  let text3_area := Label text3 16777215 0 10 in
  group_append splash text3_area ;;
  r <- get last_rssi ;;
  print ("Received RSSI: " ++ Py.str_int r)%string ;;
  r <- get last_rssi ;;
  let text2 := ("RSSI: " ++ Py.str_int r)%string in
  let text2_area := Label text2 16777215 0 25 in
  group_append splash text2_area ;;
  display_refresh ;;
  led_set true ;;
  time_sleep (1 # 2).

(** Lines 103-113: the periodic message.  [time.monotonic() - now] is a
    float subtraction: the exact difference, rounded. *)
Definition maybe_transmit (e : Env) : M unit :=
  t <- time_monotonic e ;;
  n <- get now ;;
  if Qgtb (rnd (t - n)) transmit_interval then
    t' <- time_monotonic e ;;
    modify (set_now t') ;;
    c <- get counter ;;
    modify (set_counter (c + 1)) ;;
    c <- get counter ;;
    n <- get node ;;
    rfm9x_send
      (Py.encode_utf8 ("msg num " ++ Py.str_int c ++ " node " ++ Py.str_int n)%string)
      true
  else ret tt.

(** Lines 68-77: the display context, a new group shown and then given its
    background. *)
Definition make_display_context : M nat :=
  splash <- displayio_Group ;;
  display_show splash ;;
  let color_bitmap := {| bm_width := WIDTH; bm_height := HEIGHT; bm_values := 1 |} in
  let color_palette := [0] in
  let bg_sprite := TileGrid color_bitmap color_palette 0 0 in
  group_append splash bg_sprite ;;
  ret splash.

(** Lines 68-113: one pass through the body of [while True].  The dead
    assignment [button_pressed = None] of line 113 is left out. *)
Definition loop_body (e : Env) : M unit :=
  splash <- make_display_context ;;
  led_set false ;;
  packet <- rfm9x_receive e true ;;
  match packet with
  | Some packet => on_packet splash packet
  | None => ret tt
  end ;;
  maybe_transmit e.

(** [while True]: the world and the events after the startup and [n] passes
    through the loop body. *)
Fixpoint run (e : Env) (n : nat) : World * list event :=
  match n with
  | O => (world_of (startup e boot), events_of (startup e boot))
  | S k =>
      let r := loop_body e (fst (run e k)) in
      (world_of r, snd (run e k) ++ events_of r)
  end.

Definition world_after (e : Env) (n : nat) : World := fst (run e n).
Definition trace_after (e : Env) (n : nat) : list event := snd (run e n).

(** ** Observations *)

(** The frame on the display: what the root group holds. *)
Definition frame (w : World) : list element :=
  match root_group w with
  | Some g => content g w
  | None => []
  end.

Definition is_label (x : element) : bool :=
  match x with Label _ _ _ _ => true | TileGrid _ _ _ _ => false end.

Definition text_lines (f : list element) : list element := List.filter is_label f.

Definition texts (f : list element) : list string :=
  flat_map (fun x => match x with Label t _ _ _ => [t] | TileGrid _ _ _ _ => [] end) f.

Definition ys (f : list element) : list Z :=
  flat_map (fun x => match x with Label _ _ _ y => [y] | TileGrid _ _ _ _ => [] end) f.

(** The background sprite of lines 72-76. *)
Definition background : element :=
  TileGrid {| bm_width := WIDTH; bm_height := HEIGHT; bm_values := 1 |} [0] 0 0.

(** The two labels of lines 89-98 for a packet and an RSSI value. *)
Definition payload_line (packet : list byte) : element :=
  Label (Py.str_bytes (drop 4 packet)) 16777215 0 10.

Definition rssi_line (rssi : Z) : element :=
  Label ("RSSI: " ++ Py.str_int rssi)%string 16777215 0 25.

Definition sends (tr : list event) : list (list byte * bool) :=
  flat_map (fun ev => match ev with ESend d k => [(d, k)] | _ => [] end) tr.


Definition refreshes (tr : list event) : nat :=
  length (List.filter (fun ev => match ev with ERefresh => true | _ => false end) tr).

Definition new_groups (tr : list event) : list nat :=
  flat_map (fun ev => match ev with EGroup g => [g] | _ => [] end) tr.

(** Everything but the console output and the record of what the radio
    returned. *)
Definition is_log (ev : event) : bool :=
  match ev with EPrint _ | EReceive _ _ => true | _ => false end.

Definition effects (tr : list event) : list event :=
  List.filter (fun ev => negb (is_log ev)) tr.

(** Whether the pass through the loop body that starts in [w] sends. *)
Definition transmitted (e : Env) (w : World) : bool :=
  match sends (events_of (loop_body e w)) with [] => false | _ :: _ => true end.

(** The float value of [time.monotonic() - now] on line 103 in the pass that
    starts in [w]: the first clock reading of the pass against [now]. *)
Definition elapsed (e : Env) (w : World) : Q :=
  rnd (monotonic_at e (clock_reads w) - now w).

(** What the packet received in the pass that starts in [w] is, if any. *)
Definition received (e : Env) (w : World) : option (list byte) :=
  fst (receive_at e (polls w)).

Definition is_clock (ev : event) : bool :=
  match ev with EMonotonic _ => true | _ => false end.

Definition is_show (ev : event) : bool :=
  match ev with EShow _ _ => true | _ => false end.

Definition is_poll (ev : event) : bool :=
  match ev with EReceive _ _ => true | _ => false end.

Definition is_led (ev : event) : bool :=
  match ev with ELed _ => true | _ => false end.

(** The periodic message numbered [c] of node [n], as [sends] lists it. *)
Definition numbered (n : Z) (c : nat) : list byte * bool :=
  (Py.encode_utf8 ("msg num " ++ Py.str_int (Z.of_nat c) ++ " node " ++ Py.str_int n)%string,
   true).

(** A clock that never goes back. *)
Definition clock_monotone (e : Env) : Prop :=
  forall i j, (i <= j)%nat -> (monotonic_at e i <= monotonic_at e j)%Q.

(** The periodic message with number [c] from node [n]. *)
Definition periodic_message (c n : Z) : list byte :=
  Py.encode_utf8 ("msg num " ++ Py.str_int c ++ " node " ++ Py.str_int n)%string.

Definition startup_message (c n : Z) : list byte :=
  Py.encode_utf8 ("Startup message " ++ Py.str_int c ++ " from node " ++ Py.str_int n)%string.

(** The RSSI the radio reports after the poll of the pass that starts in [w]. *)
Definition rssi_after (e : Env) (w : World) : Z :=
  snd (receive_at e (polls w)).

(** The test of line 103 in the pass that starts in [w]. *)
Definition due (e : Env) (w : World) : bool :=
  Qgtb (elapsed e w) transmit_interval.

(** ** One pass in closed form

    What [loop_body] computes, written out; [loop_body_closed] below proves
    the two equal. *)

Definition pass_frame (p : option (list byte)) (rssi : Z) : list element :=
  background ::
  match p with
  | Some packet => [payload_line packet; rssi_line rssi]
  | None => []
  end.

Definition context_events (g : nat) : list event :=
  [EGroup g; EShow g []; EAppend g background].

Definition header_log (packet : list byte) : event :=
  EPrint ("Received (raw header): " ++ Py.str_list (map Py.hex (take 4 packet)))%string.

Definition packet_events (g : nat) (p : option (list byte)) (rssi : Z) : list event :=
  match p with
  | Some packet =>
      [header_log packet;
       EPrint ("Received (raw payload): " ++ Py.str_bytearray (drop 4 packet))%string;
       EAppend g (payload_line packet);
       EPrint ("Received RSSI: " ++ Py.str_int rssi)%string;
       EAppend g (rssi_line rssi);
       ERefresh; ELed true; ESleep (1 # 2)]
  | None => []
  end.

Definition transmit_events (e : Env) (w : World) : list event :=
  EMonotonic (monotonic_at e (clock_reads w)) ::
  if due e w then
    [EMonotonic (monotonic_at e (S (clock_reads w)));
     ESend (periodic_message (counter w + 1) (node w)) true]
  else [].

Definition pass_events (e : Env) (w : World) : list event :=
  context_events (length (groups w)) ++
  [ELed false; EReceive true (received e w)] ++
  packet_events (length (groups w)) (received e w) (rssi_after e w) ++
  transmit_events e w.

Definition pass_world (e : Env) (w : World) : World :=
  {| now := if due e w then monotonic_at e (S (clock_reads w)) else now w;
     counter := if due e w then counter w + 1 else counter w;
     node := node w;
     destination := destination w;
     last_rssi := rssi_after e w;
     led_value := match received e w with Some _ => true | None => false end;
     groups := groups w ++ [pass_frame (received e w) (rssi_after e w)];
     root_group := Some (length (groups w));
     clock_reads := if due e w then S (S (clock_reads w)) else S (clock_reads w);
     polls := S (polls w) |}.

(** ** Sample environments *)

(** The clock advances by one second per reading; nothing is ever received. *)
Definition quiet : Env :=
  {| monotonic_at := fun k => inject_Z (Z.of_nat k);
     receive_at := fun _ => (None, 0) |}.

(** As [quiet], but the reading is half a second per call and every poll
    returns the given packet with the given RSSI. *)
Definition busy (packet : list byte) (rssi : Z) : Env :=
  {| monotonic_at := fun k => (inject_Z (Z.of_nat k) / 2)%Q;
     receive_at := fun _ => (Some packet, rssi) |}.

Definition hello_packet : list byte :=
  [x07; x02; x00; x00] ++ Py.encode_utf8 "hello".

(** The clock of [quiet]; every poll returns [b"hello"] behind the header
    [dest, src, 0, 0], with RSSI -42. *)
Definition hello_from (dest src : byte) : Env :=
  {| monotonic_at := monotonic_at quiet;
     receive_at := fun _ => (Some ([dest; src; x00; x00] ++ Py.encode_utf8 "hello"), -42) |}.

(** Nothing is received and the clock reads the doubles nearest to 0.3, 1.3,
    2.3, ... *)
Definition tenths : Env :=
  {| monotonic_at := fun k => round_float 53 ((3 # 10) + inject_Z (Z.of_nat k))%Q;
     receive_at := fun _ => (None, 0) |}.

(** Unfolds the script down to the state and the events. *)
Ltac run_script :=
  unfold loop_body, make_display_context, on_packet, maybe_transmit, startup,
    displayio_Group, display_show, group_append, led_set, rfm9x_receive,
    time_monotonic, rfm9x_send, print, display_refresh, time_sleep,
    bind, get, modify, emit, ret.

(** ** Further observations *)

Definition leds (tr : list event) : list bool :=
  flat_map (fun ev => match ev with ELed b => [b] | _ => [] end) tr.

(** What the polls of the radio returned, in order. *)
Definition polled (tr : list event) : list (option (list byte)) :=
  flat_map (fun ev => match ev with EReceive _ r => [r] | _ => [] end) tr.

(** What the readings of the clock returned, in order. *)
Definition clock_values (tr : list event) : list Q :=
  flat_map (fun ev => match ev with EMonotonic t => [t] | _ => [] end) tr.

(** A clock that passes every value. *)
Definition clock_unbounded (e : Env) : Prop :=
  forall t : Q, exists k, (t < monotonic_at e k)%Q.

(** The frame of the pass whose poll is the [k]-th. *)
Definition frame_of_poll (e : Env) (k : nat) : list element :=
  pass_frame (fst (receive_at e k)) (snd (receive_at e k)).

(** Characters from the space to the tilde. *)
Definition printable_char (a : ascii) : bool :=
  ((32 <=? N_of_ascii a) && (N_of_ascii a <? 127))%N.

Definition printable (s : string) : bool :=
  forallb printable_char (list_ascii_of_string s).

(** ** The Python builtins on samples *)

Example str_int_neg : Py.str_int (-42) = "-42"%string.
Proof. reflexivity. Qed.

Example str_int_zero : Py.str_int 0 = "0"%string.
Proof. reflexivity. Qed.

Example str_bytes_hello :
  Py.str_bytes (Py.encode_utf8 "hello") = "b'hello'"%string.
Proof. reflexivity. Qed.

Example str_bytes_escapes :
  Py.str_bytes [x41; x00; x0a; x5c; x27; xff] =
  ("b" ++ Py.chr x22 ++ "A\x00\n\\'\xff" ++ Py.chr x22)%string.
Proof. reflexivity. Qed.

Example str_list_hex :
  Py.str_list (map Py.hex [x02; x01; x0a; xff]) = "['0x2', '0x1', '0xa', '0xff']"%string.
Proof. reflexivity. Qed.


(** ** Basic facts *)

Lemma alter_fresh {A} (f : A -> A) (l : list A) (x : A) :
  alter f (length l) (l ++ [x]) = l ++ [f x].
Proof.
  induction l as [|a l IH]; simpl; [reflexivity|].
  f_equal. exact IH.
Qed.

Lemma lookup_fresh {A} (l : list A) (x : A) :
  (l ++ [x]) !! length l = Some x.
Proof.
  induction l as [|a l IH]; simpl; [reflexivity | exact IH].
Qed.

Lemma Qgtb_lt (a b : Q) : Qgtb a b = true <-> (b < a)%Q.
Proof.
  unfold Qgtb. rewrite negb_true_iff.
  split.
  - intros H. apply Qnot_le_lt. intros Hle.
    apply Qle_bool_iff in Hle. congruence.
  - intros H. destruct (Qle_bool a b) eqn:E; [|reflexivity].
    apply Qle_bool_iff in E. exfalso. revert E. apply Qlt_not_le. exact H.
Qed.

(** A float difference above the interval comes from an exact difference
    above it. *)
Lemma rnd_above_interval (x : Q) :
  (transmit_interval < rnd x)%Q -> (transmit_interval < x)%Q.
Proof.
  unfold transmit_interval. intros H.
  apply Qnot_le_lt. intros Hle.
  assert (M := rnd_mono x 1 Hle). assert (O := rnd_one). lra.
Qed.

(** The body of the loop computes the closed form. *)
Lemma loop_body_closed (e : Env) (w : World) :
  loop_body e w = (tt, pass_world e w, pass_events e w).
Proof.
  unfold pass_world, pass_events, transmit_events, due, elapsed, received, rssi_after.
  run_script. cbn.
  destruct (receive_at e (polls w)) as [[packet|] rssi]; cbn;
    destruct (Qgtb _ _); cbn; rewrite ?alter_fresh; cbn;
    unfold content; cbn; rewrite lookup_fresh; reflexivity.
Qed.

Lemma world_of_pass (e : Env) (w : World) :
  world_of (loop_body e w) = pass_world e w.
Proof. rewrite loop_body_closed. reflexivity. Qed.

Lemma events_of_pass (e : Env) (w : World) :
  events_of (loop_body e w) = pass_events e w.
Proof. rewrite loop_body_closed. reflexivity. Qed.

Lemma world_after_S (e : Env) (n : nat) :
  world_after e (S n) = pass_world e (world_after e n).
Proof. unfold world_after. simpl. apply world_of_pass. Qed.

Lemma trace_after_S (e : Env) (n : nat) :
  trace_after e (S n) = trace_after e n ++ pass_events e (world_after e n).
Proof. unfold trace_after, world_after. simpl. rewrite events_of_pass. reflexivity. Qed.

Lemma sends_app (a b : list event) : sends (a ++ b) = sends a ++ sends b.
Proof. unfold sends. apply flat_map_app. Qed.

Lemma sends_packet_events (g : nat) (p : option (list byte)) (rssi : Z) :
  sends (packet_events g p rssi) = [].
Proof. destruct p; reflexivity. Qed.

Lemma sends_pass (e : Env) (w : World) :
  sends (pass_events e w) =
  if due e w then [(periodic_message (counter w + 1) (node w), true)] else [].
Proof.
  unfold pass_events, transmit_events.
  rewrite !sends_app, sends_packet_events.
  destruct (due e w); reflexivity.
Qed.

Lemma transmitted_due (e : Env) (w : World) : transmitted e w = due e w.
Proof.
  unfold transmitted. rewrite events_of_pass, sends_pass.
  destruct (due e w); reflexivity.
Qed.

Lemma due_lt (e : Env) (w : World) :
  due e w = true <-> (transmit_interval < elapsed e w)%Q.
Proof. unfold due. apply Qgtb_lt. Qed.

(** ** The transmit timer *)

Section Timer.

Variable e : Env.

(** [now] always holds a reading the clock has already given. *)
Lemma now_is_past_reading (n : nat) :
  exists m, (m < clock_reads (world_after e n))%nat /\
            now (world_after e n) = monotonic_at e m.
Proof.
  induction n as [|n [m [Hlt Hnow]]].
  - exists 0%nat. split; [cbn; lia | reflexivity].
  - rewrite world_after_S. unfold pass_world; cbn.
    destruct (due e (world_after e n)).
    + exists (S (clock_reads (world_after e n))). split; [lia | reflexivity].
    + exists m. split; [lia | exact Hnow].
Qed.

Hypothesis clock_ok : clock_monotone e.

Lemma now_step (n : nat) :
  (now (world_after e n) <= now (world_after e (S n)))%Q.
Proof.
  destruct (now_is_past_reading n) as [m [Hlt Hnow]].
  rewrite world_after_S. unfold pass_world; cbn.
  destruct (due e (world_after e n)).
  - rewrite Hnow. apply clock_ok. lia.
  - apply Qle_refl.
Qed.


(** A pass that sends moves [now] past the old value by more than the
    interval. *)
Lemma now_jump (n : nat) :
  due e (world_after e n) = true ->
  (now (world_after e n) + transmit_interval < now (world_after e (S n)))%Q.
Proof.
  intros Hdue.
  assert (Hlt := proj1 (due_lt _ _) Hdue). unfold elapsed in Hlt.
  apply rnd_above_interval in Hlt.
  rewrite world_after_S. unfold pass_world; cbn. rewrite Hdue.
  assert (Hm := clock_ok (clock_reads (world_after e n))
                         (S (clock_reads (world_after e n)))).
  specialize (Hm ltac:(lia)).
  lra.
Qed.


End Timer.

Lemma quiet_monotone : clock_monotone quiet.
Proof.
  intros i j Hij. cbn. rewrite <- Zle_Qle. lia.
Qed.

(** ** The periodic transmit (C1) *)


(** ** The message counter (C2) *)

Lemma startup_closed (e : Env) :
  startup e boot =
  (tt,
   {| now := monotonic_at e 0; counter := 0; node := 1; destination := 2;
      last_rssi := 0; led_value := true; groups := []; root_group := None;
      clock_reads := 1; polls := 0 |},
   [ESend (startup_message 0 1) false; EPrint "Waiting for packets...";
    EMonotonic (monotonic_at e 0); ELed true]).
Proof. reflexivity. Qed.

Lemma node_after (e : Env) (n : nat) : node (world_after e n) = 1.
Proof.
  induction n as [|n IH]; [reflexivity|].
  rewrite world_after_S. exact IH.
Qed.

Lemma counter_step (e : Env) (w : World) :
  counter (pass_world e w) = if due e w then counter w + 1 else counter w.
Proof. reflexivity. Qed.

Lemma counter_nonneg (e : Env) (n : nat) : 0 <= counter (world_after e n).
Proof.
  induction n as [|n IH]; [cbn; lia|].
  rewrite world_after_S, counter_step.
  destruct (due e (world_after e n)); lia.
Qed.

Lemma seq_next (c : Z) :
  0 <= c ->
  seq 1 (Z.to_nat (c + 1)) = seq 1 (Z.to_nat c) ++ [Z.to_nat (c + 1)].
Proof.
  intros Hc.
  replace (Z.to_nat (c + 1)) with (S (Z.to_nat c)) by lia.
  rewrite seq_S. reflexivity.
Qed.

(** Everything sent up to the end of pass [n]: the startup message, then the
    messages numbered 1, 2, ..., [counter]. *)
Lemma sends_after (e : Env) (n : nat) :
  sends (trace_after e n) =
  (startup_message 0 1, false) ::
  map (numbered 1) (seq 1 (Z.to_nat (counter (world_after e n)))).
Proof.
  induction n as [|n IH]; [reflexivity|].
  rewrite trace_after_S, sends_app, IH, sends_pass.
  rewrite world_after_S, counter_step, node_after.
  assert (Hc := counter_nonneg e n).
  destruct (due e (world_after e n)).
  - rewrite seq_next by exact Hc. rewrite map_app. cbn [map app].
    unfold numbered at 3. rewrite Z2Nat.id by lia. reflexivity.
  - rewrite app_nil_r. reflexivity.
Qed.

(** C2: the counter is 0 when the startup message is sent, that message is
    the only thing sent before the loop and embeds the counter and the node
    address; a pass that sends adds exactly 1 to the counter and sends the
    payload embedding the new value; a pass that does not send leaves the
    counter alone; so after any number of passes what has been sent is the
    startup message followed by the messages numbered 1 to [counter]. *)
Theorem counter_follows_transmits (e : Env) :
  counter (world_of (startup e boot)) = 0 /\
  sends (events_of (startup e boot)) =
    [(Py.encode_utf8 "Startup message 0 from node 1", false)] /\
  (forall w,
     counter (world_of (loop_body e w)) =
       (if transmitted e w then counter w + 1 else counter w) /\
     sends (events_of (loop_body e w)) =
       (if transmitted e w
        then [(periodic_message (counter (world_of (loop_body e w))) (node w), true)]
        else [])) /\
  (forall n,
     sends (trace_after e n) =
       (Py.encode_utf8 "Startup message 0 from node 1", false) ::
       map (numbered 1) (seq 1 (Z.to_nat (counter (world_after e n))))).
Proof.
  split; [reflexivity|]. split; [reflexivity|]. split.
  - intros w. rewrite transmitted_due, world_of_pass, events_of_pass, sends_pass.
    rewrite counter_step. destruct (due e w); split; reflexivity.
  - intros n. apply sends_after.
Qed.

Example periodic_message_3 :
  periodic_message 3 1 = Py.encode_utf8 "msg num 3 node 1".
Proof. reflexivity. Qed.

(** ** The display frame (C3, C4, C5) *)

Lemma frame_pass (e : Env) (w : World) :
  frame (pass_world e w) = pass_frame (received e w) (rssi_after e w).
Proof.
  unfold frame, content, pass_world; cbn.
  rewrite lookup_fresh. reflexivity.
Qed.

Lemma last_rssi_pass (e : Env) (w : World) :
  last_rssi (pass_world e w) = rssi_after e w.
Proof. reflexivity. Qed.

(** C3: when the poll of a pass returns a packet, the frame on the display
    at the end of the pass holds the background and exactly two text lines,
    appended in this order: the line made from the bytes after the 4-byte
    header, at y = 10, then the line made from the RSSI, at y = 25, so the
    payload line is the upper one. *)
Theorem packet_frame_has_two_lines (e : Env) (w : World) (packet : list byte) :
  received e w = Some packet ->
  let w' := world_of (loop_body e w) in
  frame w' = [background; payload_line packet; rssi_line (last_rssi w')] /\
  text_lines (frame w') = [payload_line packet; rssi_line (last_rssi w')] /\
  texts (frame w') =
    [Py.str_bytes (drop 4 packet); ("RSSI: " ++ Py.str_int (last_rssi w'))%string] /\
  ys (frame w') = [10; 25] /\
  10 < 25.
Proof.
  intros Hrx w'. subst w'.
  rewrite world_of_pass, frame_pass, last_rssi_pass, Hrx.
  repeat split; reflexivity.
Qed.

(** C4: when the poll of a pass returns nothing, the frame on the display at
    the end of the pass holds the background sprite and no text line, and no
    label was appended to any group during the pass. *)
Theorem no_packet_frame_is_background (e : Env) (w : World) :
  received e w = None ->
  let r := loop_body e w in
  frame (world_of r) = [background] /\
  text_lines (frame (world_of r)) = [] /\
  forall g x, In (EAppend g x) (events_of r) -> x = background.
Proof.
  intros Hrx r. subst r.
  rewrite world_of_pass, events_of_pass, frame_pass.
  unfold pass_events. rewrite Hrx.
  split; [reflexivity|]. split; [reflexivity|].
  intros g x Hin. cbn in Hin.
  unfold transmit_events in Hin.
  destruct (due e w); cbn in Hin;
    repeat (destruct Hin as [Hin|Hin]; [try discriminate; try congruence|]);
    contradiction.
Qed.

(** C5: every pass calls [displayio.Group()] exactly once; the group it gets
    is a new object (no earlier reference points to it), it is what the
    display shows from then on, it holds the background alone when the radio
    is polled, and the groups of earlier passes are not touched.  What the
    frame holds at the end of the pass is the background and what this pass
    received: nothing of an earlier frame is in it. *)
Theorem one_fresh_frame_per_pass (e : Env) (w : World) :
  let r := loop_body e w in
  let g := length (groups w) in
  new_groups (events_of r) = [g] /\
  groups w !! g = None /\
  root_group (world_of r) = Some g /\
  frame (world_of (make_display_context w)) = [background] /\
  (exists rest, groups (world_of r) = groups w ++ rest /\ length rest = 1%nat) /\
  frame (world_of r) =
    background ::
    match received e w with
    | Some packet => [payload_line packet; rssi_line (rssi_after e w)]
    | None => []
    end.
Proof.
  intros r g. subst r g.
  rewrite world_of_pass, events_of_pass, frame_pass.
  split.
  - unfold pass_events, transmit_events.
    destruct (received e w), (due e w); reflexivity.
  - split; [apply lookup_ge_None_2; lia|].
    split; [reflexivity|].
    split.
    + unfold frame, content. run_script. cbn.
      rewrite alter_fresh, lookup_fresh. reflexivity.
    + split; [|reflexivity].
      eexists. split; [reflexivity | reflexivity].
Qed.

(** ** The order of a pass (C6, C9) *)




(** C9: every pass begins by making a group and showing it while it is still
    empty, before the radio is polled, whether or not a packet then comes;
    nothing else is shown during the pass and the radio is polled once.
    [display.refresh()] is called once in a pass that received a packet and
    not at all in a pass that did not. *)
Theorem show_precedes_poll_refresh_follows_packet (e : Env) (w : World) :
  let evs := events_of (loop_body e w) in
  (exists g before after,
     evs = EGroup g :: EShow g [] :: before ++ EReceive true (received e w) :: after /\
     existsb is_poll before = false /\
     existsb is_show (before ++ after) = false /\
     existsb is_poll after = false) /\
  refreshes evs = match received e w with Some _ => 1%nat | None => 0%nat end.
Proof.
  intros evs. subst evs. rewrite events_of_pass. split.
  - exists (length (groups w)), [EAppend (length (groups w)) background; ELed false],
      (packet_events (length (groups w)) (received e w) (rssi_after e w) ++
       transmit_events e w).
    split; [reflexivity|]. split; [reflexivity|].
    unfold transmit_events.
    destruct (received e w), (due e w); split; reflexivity.
  - unfold pass_events, transmit_events.
    destruct (received e w), (due e w); reflexivity.
Qed.

(** ** What is shown of a packet (C7, C8, C10) *)

(** C7: a packet returned by the poll is put on the display whatever its
    header says: for every destination byte (and every other header byte),
    equal to the node address or not, the pass appends the payload line and
    the RSSI line and calls [display.refresh()]. *)
Theorem shown_for_any_destination
    (e : Env) (w : World) (dest src id flags : byte) (payload : list byte) :
  received e w = Some (dest :: src :: id :: flags :: payload) ->
  let r := loop_body e w in
  texts (frame (world_of r)) =
    [Py.str_bytes payload; ("RSSI: " ++ Py.str_int (rssi_after e w))%string] /\
  refreshes (events_of r) = 1%nat.
Proof.
  intros Hrx r. subst r.
  rewrite world_of_pass, events_of_pass, frame_pass.
  unfold pass_events, transmit_events. rewrite Hrx.
  split; [reflexivity|].
  destruct (due e w); reflexivity.
Qed.

(** C8: when the poll returns a packet whose bytes after the 4-byte header
    are [b"hello"], with RSSI -42, the first text line of the frame is
    [b'hello'] and the second is [RSSI: -42]; the LED is switched on and
    the script then sleeps for half a second before it goes on to the
    deadline test, and the LED is still on at the end of the pass. *)
Theorem hello_scenario (e : Env) (w : World) (h0 h1 h2 h3 : byte) :
  receive_at e (polls w) = (Some ([h0; h1; h2; h3] ++ Py.encode_utf8 "hello"), -42) ->
  let r := loop_body e w in
  texts (frame (world_of r)) = ["b'hello'"; "RSSI: -42"]%string /\
  (exists before after,
     events_of r =
       before ++ [ELed true; ESleep (1 # 2)] ++
       EMonotonic (monotonic_at e (clock_reads w)) :: after /\
     existsb is_clock before = false /\
     existsb is_led after = false) /\
  led_value (world_of r) = true.
Proof.
  intros Hrx r. subst r.
  rewrite world_of_pass, events_of_pass, frame_pass.
  unfold pass_events, pass_world, transmit_events, received, rssi_after.
  rewrite Hrx. cbn [fst snd led_value].
  split; [reflexivity|]. split; [|reflexivity].
  eexists (_ :: _ :: _ :: _ :: _ :: _ :: _ :: _ :: _ :: _ :: [ERefresh]), _.
  split; [reflexivity|].
  split; [reflexivity|].
  destruct (due e w); reflexivity.
Qed.

(** C10: the header of a packet reaches the console and nothing else.  Let
    two environments have the same clock and let their polls of this pass
    return packets with the same bytes from index 4 on and the same RSSI.
    Then the two passes leave the same world, so the same frame with the same
    text lines, and their events are the same but for the record of what the
    poll returned and the one console line that prints the header: what
    they do to the display, the LED, the radio and the clock is the same. *)
Theorem header_reaches_only_the_log
    (e1 e2 : Env) (w : World) (p1 p2 : list byte) (rssi : Z) :
  (forall k, monotonic_at e1 k = monotonic_at e2 k) ->
  receive_at e1 (polls w) = (Some p1, rssi) ->
  receive_at e2 (polls w) = (Some p2, rssi) ->
  drop 4 p1 = drop 4 p2 ->
  let r1 := loop_body e1 w in
  let r2 := loop_body e2 w in
  world_of r1 = world_of r2 /\
  text_lines (frame (world_of r1)) = text_lines (frame (world_of r2)) /\
  text_lines (frame (world_of r1)) = [payload_line p1; rssi_line rssi] /\
  effects (events_of r1) = effects (events_of r2) /\
  exists before after,
    events_of r1 = before ++ EReceive true (Some p1) :: header_log p1 :: after /\
    events_of r2 = before ++ EReceive true (Some p2) :: header_log p2 :: after.
Proof.
  intros Hclock H1 H2 Hpay r1 r2. subst r1 r2.
  assert (Hline : payload_line p1 = payload_line p2).
  { unfold payload_line. rewrite Hpay. reflexivity. }
  assert (Hdue : due e1 w = due e2 w).
  { unfold due, elapsed. rewrite Hclock. reflexivity. }
  assert (Hw : pass_world e1 w = pass_world e2 w).
  { unfold pass_world, received, rssi_after, pass_frame.
    rewrite H1, H2, Hdue, Hclock. cbn [fst snd]. rewrite Hline. reflexivity. }
  rewrite !world_of_pass, !events_of_pass, Hw.
  assert (Hev : exists before after,
    pass_events e1 w = before ++ EReceive true (Some p1) :: header_log p1 :: after /\
    pass_events e2 w = before ++ EReceive true (Some p2) :: header_log p2 :: after).
  { exists (context_events (length (groups w)) ++ [ELed false]).
    eexists.
    unfold pass_events, transmit_events, received, rssi_after.
    rewrite H1, H2, Hdue, !Hclock. cbn [fst snd packet_events].
    rewrite Hline, Hpay.
    split; reflexivity. }
  split; [reflexivity|]. split; [reflexivity|]. split; [|split].
  - rewrite frame_pass. unfold received, rssi_after. rewrite H2, Hline. reflexivity.
  - destruct Hev as (before & after & E1 & E2). rewrite E1, E2.
    unfold effects. rewrite !List.filter_app. reflexivity.
  - exact Hev.
Qed.


(** ** Beyond the claims: the LED, the calls of a run, the frames of a run *)

Lemma leds_app (a b : list event) : leds (a ++ b) = leds a ++ leds b.
Proof. unfold leds. apply flat_map_app. Qed.

Lemma polled_app (a b : list event) : polled (a ++ b) = polled a ++ polled b.
Proof. unfold polled. apply flat_map_app. Qed.

Lemma clock_values_app (a b : list event) :
  clock_values (a ++ b) = clock_values a ++ clock_values b.
Proof. unfold clock_values. apply flat_map_app. Qed.

Lemma new_groups_app (a b : list event) :
  new_groups (a ++ b) = new_groups a ++ new_groups b.
Proof. unfold new_groups. apply flat_map_app. Qed.

Lemma polled_pass (e : Env) (w : World) :
  polled (pass_events e w) = [received e w].
Proof.
  unfold pass_events, transmit_events.
  destruct (received e w), (due e w); reflexivity.
Qed.

Lemma clock_values_pass (e : Env) (w : World) :
  clock_values (pass_events e w) =
  map (monotonic_at e) (seq (clock_reads w) (if due e w then 2 else 1)).
Proof.
  unfold pass_events, transmit_events.
  destruct (received e w), (due e w); reflexivity.
Qed.

Lemma new_groups_pass (e : Env) (w : World) :
  new_groups (pass_events e w) = [length (groups w)].
Proof.
  unfold pass_events, transmit_events.
  destruct (received e w), (due e w); reflexivity.
Qed.

Lemma polls_after (e : Env) (n : nat) : polls (world_after e n) = n.
Proof.
  induction n as [|n IH]; [reflexivity|].
  rewrite world_after_S. cbn. rewrite IH. reflexivity.
Qed.

Lemma clock_reads_after (e : Env) (n : nat) :
  Z.of_nat (clock_reads (world_after e n)) =
  1 + Z.of_nat n + counter (world_after e n).
Proof.
  induction n as [|n IH]; [reflexivity|].
  rewrite world_after_S. unfold pass_world; cbn [clock_reads counter].
  destruct (due e (world_after e n)); lia.
Qed.

Lemma counter_le_passes (e : Env) (n : nat) :
  counter (world_after e n) <= Z.of_nat n.
Proof.
  induction n as [|n IH]; [cbn; lia|].
  rewrite world_after_S, counter_step.
  destruct (due e (world_after e n)); lia.
Qed.

(** X1: a pass switches the LED off before it polls the radio and on again
    only after the poll has returned a packet: the one LED write before the
    poll is [False], the LED writes after it are [True] once if a packet
    came and none otherwise.  So at the end of a pass the LED is on exactly
    when the pass received a packet. *)
Theorem led_shows_reception (e : Env) (w : World) :
  (exists before after,
     events_of (loop_body e w) = before ++ EReceive true (received e w) :: after /\
     existsb is_poll (before ++ after) = false /\
     leds before = [false] /\
     leds after = match received e w with Some _ => [true] | None => [] end) /\
  (led_value (world_of (loop_body e w)) = true <-> received e w <> None).
Proof.
  rewrite events_of_pass, world_of_pass. split.
  - exists (context_events (length (groups w)) ++ [ELed false]),
      (packet_events (length (groups w)) (received e w) (rssi_after e w) ++
       transmit_events e w).
    unfold pass_events, transmit_events.
    split; [rewrite <- app_assoc; reflexivity|].
    destruct (received e w), (due e w); repeat split; reflexivity.
  - unfold pass_world; cbn [led_value].
    destruct (received e w); split; congruence.
Qed.

(** X2: in a run of [n] passes the radio has been polled exactly [n] times,
    once per pass and in order, and the clock has been read once at startup,
    once per pass and once more per periodic message: [1 + n + counter]
    readings, in order.  No pass sends more than one message, so the counter
    is at most [n]. *)
Theorem calls_of_a_run (e : Env) (n : nat) :
  polled (trace_after e n) = map (fun k => fst (receive_at e k)) (seq 0 n) /\
  clock_values (trace_after e n) =
    map (monotonic_at e) (seq 0 (clock_reads (world_after e n))) /\
  Z.of_nat (clock_reads (world_after e n)) =
    1 + Z.of_nat n + counter (world_after e n) /\
  0 <= counter (world_after e n) <= Z.of_nat n /\
  (length (sends (events_of (loop_body e (world_after e n)))) <= 1)%nat.
Proof.
  split; [|split; [|split; [apply clock_reads_after|split]]];
    [| | | rewrite events_of_pass, sends_pass;
           destruct (due e (world_after e n)); cbn; lia].
  - induction n as [|n IH]; [reflexivity|].
    rewrite trace_after_S, polled_app, IH, polled_pass.
    unfold received. rewrite polls_after, seq_S, map_app. reflexivity.
  - induction n as [|n IH]; [reflexivity|].
    rewrite trace_after_S, clock_values_app, IH, clock_values_pass.
    rewrite world_after_S. unfold pass_world; cbn [clock_reads].
    rewrite <- map_app.
    destruct (due e (world_after e n)).
    + replace (S (S (clock_reads (world_after e n))))
        with (clock_reads (world_after e n) + 2)%nat by lia.
      rewrite seq_app. reflexivity.
    + replace (S (clock_reads (world_after e n)))
        with (clock_reads (world_after e n) + 1)%nat by lia.
      rewrite seq_app. reflexivity.
  - split; [apply counter_nonneg | apply counter_le_passes].
Qed.

Lemma groups_after (e : Env) (n : nat) :
  groups (world_after e n) = map (frame_of_poll e) (seq 0 n).
Proof.
  induction n as [|n IH]; [reflexivity|].
  rewrite world_after_S. unfold pass_world; cbn [groups].
  rewrite IH, seq_S, map_app. unfold received, rssi_after.
  rewrite polls_after. reflexivity.
Qed.

(** X3: the groups of a run are never reused or changed afterwards.  After
    [n] passes there are [n] groups, made in the order 0, 1, ..., n-1; group
    [k] still holds the frame of pass [k] (the background, and the two lines
    of the [k]-th poll if it returned a packet); the display shows the last
    one. *)
Theorem frames_of_a_run (e : Env) (n : nat) :
  new_groups (trace_after e n) = seq 0 n /\
  groups (world_after e n) = map (frame_of_poll e) (seq 0 n) /\
  (forall k, (k < n)%nat ->
     content k (world_after e n) =
       background ::
       match fst (receive_at e k) with
       | Some packet => [payload_line packet; rssi_line (snd (receive_at e k))]
       | None => []
       end) /\
  root_group (world_after e n) = match n with O => None | S k => Some k end.
Proof.
  split; [|split; [apply groups_after|split]].
  - induction n as [|n IH]; [reflexivity|].
    rewrite trace_after_S, new_groups_app, IH, new_groups_pass, groups_after.
    rewrite length_map, length_seq, seq_S. reflexivity.
  - intros k Hk. unfold content. rewrite groups_after.
    rewrite list_lookup_fmap, lookup_seq_lt by exact Hk. reflexivity.
  - destruct n as [|n]; [reflexivity|].
    rewrite world_after_S. unfold pass_world; cbn [root_group].
    rewrite groups_after, length_map, length_seq. reflexivity.
Qed.

(** ** Beyond the claims: the timer and the radio do not interfere *)

Lemma timer_after_same_clock (e1 e2 : Env) (n : nat) :
  (forall k, monotonic_at e1 k = monotonic_at e2 k) ->
  now (world_after e1 n) = now (world_after e2 n) /\
  counter (world_after e1 n) = counter (world_after e2 n) /\
  clock_reads (world_after e1 n) = clock_reads (world_after e2 n).
Proof.
  intros Hclock.
  induction n as [|n (Hnow & Hcount & Hreads)].
  - cbn. rewrite Hclock. auto.
  - rewrite !world_after_S.
    assert (Hdue : due e1 (world_after e1 n) = due e2 (world_after e2 n)).
    { unfold due, elapsed. rewrite Hnow, Hreads, Hclock. reflexivity. }
    unfold pass_world; cbn [now counter clock_reads].
    rewrite Hdue, Hnow, Hcount, Hreads, Hclock. auto.
Qed.

(** X4: what the node transmits does not depend on what it receives.  Two
    runs that read the same values off the clock send the same messages with
    the same flags, pass by pass, whatever their radios return. *)
Theorem radio_does_not_change_transmits (e1 e2 : Env) (n : nat) :
  (forall k, monotonic_at e1 k = monotonic_at e2 k) ->
  sends (trace_after e1 n) = sends (trace_after e2 n) /\
  transmitted e1 (world_after e1 n) = transmitted e2 (world_after e2 n) /\
  counter (world_after e1 n) = counter (world_after e2 n).
Proof.
  intros Hclock.
  destruct (timer_after_same_clock e1 e2 n Hclock) as (Hnow & Hcount & Hreads).
  split; [|split; [|exact Hcount]].
  - rewrite !sends_after, Hcount. reflexivity.
  - rewrite !transmitted_due. unfold due, elapsed.
    rewrite Hnow, Hreads, Hclock. reflexivity.
Qed.

Lemma frame_after_S (e : Env) (n : nat) :
  frame (world_after e (S n)) = frame_of_poll e n.
Proof.
  rewrite world_after_S, frame_pass. unfold received, rssi_after, frame_of_poll.
  rewrite polls_after. reflexivity.
Qed.

(** X5: what the display shows does not depend on the clock.  Two runs whose
    radios return the same packets and RSSI values have the same groups with
    the same contents and show the same frame, whatever their clocks read
    and whenever they transmit. *)
Theorem clock_does_not_change_frames (e1 e2 : Env) (n : nat) :
  (forall k, receive_at e1 k = receive_at e2 k) ->
  groups (world_after e1 n) = groups (world_after e2 n) /\
  frame (world_after e1 n) = frame (world_after e2 n).
Proof.
  intros Hradio.
  assert (Hg : groups (world_after e1 n) = groups (world_after e2 n)).
  { rewrite !groups_after. apply map_ext. intros k.
    unfold frame_of_poll. rewrite Hradio. reflexivity. }
  split; [exact Hg|].
  destruct n as [|n]; [reflexivity|].
  rewrite !frame_after_S. unfold frame_of_poll. rewrite Hradio. reflexivity.
Qed.

(** ** Beyond the claims: how often the node transmits *)

Section Rate.

Variable e : Env.
Hypothesis clock_ok : clock_monotone e.

Lemma counter_times_interval (n : nat) :
  (inject_Z (counter (world_after e n)) * transmit_interval <=
   now (world_after e n) - now (world_after e 0))%Q.
Proof.
  induction n as [|n IH].
  - cbn. change (inject_Z 0) with 0%Q. lra.
  - assert (Hstep := now_step e clock_ok n).
    destruct (due e (world_after e n)) eqn:Hdue.
    + assert (Hjump := now_jump e clock_ok n Hdue).
      rewrite world_after_S, counter_step, Hdue, <- world_after_S.
      rewrite inject_Z_plus. change (inject_Z 1) with 1%Q.
      set (c := inject_Z (counter (world_after e n))) in *.
      unfold transmit_interval in *. lra.
    + rewrite world_after_S at 1. rewrite counter_step, Hdue.
      set (c := inject_Z (counter (world_after e n))) in *. lra.
Qed.

(** While no pass sends, [now] stays and every pass reads the clock once. *)
Lemma idle_stretch (m k : nat) :
  (exists n, (m <= n < m + k)%nat /\ due e (world_after e n) = true) \/
  (now (world_after e (m + k)) = now (world_after e m) /\
   clock_reads (world_after e (m + k)) = (clock_reads (world_after e m) + k)%nat).
Proof.
  induction k as [|k [(n & Hn & Hdue) | (Hnow & Hreads)]].
  - right. rewrite !Nat.add_0_r. auto.
  - left. exists n. split; [lia | exact Hdue].
  - destruct (due e (world_after e (m + k))) eqn:Hdue.
    + left. exists (m + k)%nat. split; [lia | exact Hdue].
    + right. replace (m + S k)%nat with (S (m + k)) by lia.
      rewrite world_after_S. unfold pass_world; cbn [now clock_reads].
      rewrite Hdue, Hnow, Hreads. split; [reflexivity | lia].
Qed.

End Rate.

(** X6: the node cannot transmit faster than its interval.  With a clock
    that never goes back, the number of periodic messages sent in a run,
    times the transmit interval, is at most the time from the startup reading
    of the clock to the latest value of [now]. *)
Theorem transmit_rate_is_bounded (e : Env) (n : nat) :
  clock_monotone e ->
  (inject_Z (counter (world_after e n)) * transmit_interval <=
   now (world_after e n) - monotonic_at e 0)%Q /\
  exists m, (m < clock_reads (world_after e n))%nat /\
            now (world_after e n) = monotonic_at e m.
Proof.
  intros Hclock. split.
  - exact (counter_times_interval e Hclock n).
  - apply now_is_past_reading.
Qed.

(** X7: the periodic message is never starved.  With a clock that never goes
    back and passes every value, after any pass there is a later pass that
    transmits, whatever the radio returns in between. *)
Theorem transmit_recurs (e : Env) (m : nat) :
  clock_monotone e -> clock_unbounded e ->
  exists n, (m <= n)%nat /\ transmitted e (world_after e n) = true.
Proof.
  intros Hmono Hunb.
  destruct (Hunb (now (world_after e m) + 2)%Q) as [k Hk].
  destruct (idle_stretch e m k) as [(n & Hn & Hdue) | (Hnow & Hreads)].
  - exists n. split; [lia|]. rewrite transmitted_due. exact Hdue.
  - exists (m + k)%nat. split; [lia|].
    rewrite transmitted_due. apply due_lt. unfold elapsed, transmit_interval.
    rewrite Hnow, Hreads.
    assert (Hle := Hmono k (clock_reads (world_after e m) + k)%nat ltac:(lia)).
    assert (M := rnd_mono 2
                   (monotonic_at e (clock_reads (world_after e m) + k) -
                    now (world_after e m)) ltac:(lra)).
    assert (T := rnd_two). lra.
Qed.

Lemma quiet_unbounded : clock_unbounded quiet.
Proof.
  intros [p q].
  exists (Z.to_nat (Z.max 0 p + 1)). cbn.
  unfold Qlt; cbn.
  rewrite Z2Nat.id by lia.
  assert (Hq : 1 <= Z.pos q) by lia.
  nia.
Qed.

(** ** Beyond the claims: short packets *)

(** X8: a packet of four bytes or fewer is not an error.  The slice
    [packet[4:]] is empty, and the pass shows the empty bytes literal above
    the RSSI line and refreshes the display as for any other packet. *)
Theorem short_packet_shows_empty_payload (e : Env) (w : World) (packet : list byte) :
  received e w = Some packet ->
  (length packet <= 4)%nat ->
  let r := loop_body e w in
  texts (frame (world_of r)) =
    ["b''"; ("RSSI: " ++ Py.str_int (rssi_after e w))%string]%string /\
  refreshes (events_of r) = 1%nat.
Proof.
  intros Hrx Hlen r. subst r.
  rewrite world_of_pass, events_of_pass, frame_pass.
  unfold pass_events, transmit_events, pass_frame, payload_line. rewrite Hrx.
  rewrite drop_ge by exact Hlen.
  split; [reflexivity|].
  destruct (due e w); reflexivity.
Qed.

(** ** Beyond the claims: the texts on the display *)

Lemma list_ascii_app (a b : string) :
  list_ascii_of_string (a ++ b) = list_ascii_of_string a ++ list_ascii_of_string b.
Proof.
  induction a as [|c a IH]; [reflexivity|].
  cbn. rewrite IH. reflexivity.
Qed.

Lemma printable_app (a b : string) :
  printable (a ++ b) = printable a && printable b.
Proof. unfold printable. rewrite list_ascii_app. apply forallb_app. Qed.

Lemma printable_concat (l : list string) :
  Forall (fun s => printable s = true) l ->
  printable (String.concat EmptyString l) = true.
Proof.
  induction 1 as [|s l Hs Hl IH]; [reflexivity|].
  destruct l as [|s' l]; [exact Hs|].
  change (printable (s ++ EmptyString ++ String.concat EmptyString (s' :: l)) = true).
  rewrite !printable_app, Hs, IH. reflexivity.
Qed.

Lemma escape_printable (q b : byte) :
  q = x22 \/ q = x27 -> printable (Py.escape q b) = true.
Proof.
  intros [-> | ->]; destruct b; reflexivity.
Qed.

Lemma quote_of_cases (bs : list byte) :
  Py.quote_of bs = x22 \/ Py.quote_of bs = x27.
Proof.
  unfold Py.quote_of. destruct (_ && _); auto.
Qed.

Lemma str_bytes_printable (bs : list byte) :
  printable (Py.str_bytes bs) = true.
Proof.
  unfold Py.str_bytes.
  assert (Hq := quote_of_cases bs).
  set (q := Py.quote_of bs) in *.
  assert (Hc : printable (Py.chr q) = true) by (destruct Hq as [-> | ->]; reflexivity).
  rewrite !printable_app, Hc, printable_concat; [reflexivity|].
  apply List.Forall_forall. intros s Hin.
  apply in_map_iff in Hin. destruct Hin as (b & <- & _).
  apply escape_printable. exact Hq.
Qed.

Lemma digits_printable (d : Decimal.uint) :
  printable (NilEmpty.string_of_uint d) = true.
Proof.
  induction d; cbn; try reflexivity; exact IHd.
Qed.

Lemma str_int_printable (i : Z) : printable (Py.str_int i) = true.
Proof.
  unfold Py.str_int.
  destruct (Z.to_int i) as [d | d]; cbn;
    destruct d; try reflexivity; apply digits_printable.
Qed.

(** X9: whatever bytes a packet holds, the display gets plain text.  Every
    text line of the frame at the end of a pass consists of characters from
    the space to the tilde only: control and non-ASCII bytes of the payload
    reach it as escapes. *)
Theorem frame_texts_are_printable (e : Env) (w : World) :
  forallb printable (texts (frame (world_of (loop_body e w)))) = true.
Proof.
  rewrite world_of_pass, frame_pass. unfold pass_frame.
  destruct (received e w) as [packet|]; [|reflexivity].
  change (printable (Py.str_bytes (drop 4 packet)) &&
          (printable ("RSSI: " ++ Py.str_int (rssi_after e w)) && true) = true).
  rewrite str_bytes_printable, printable_app, str_int_printable. reflexivity.
Qed.

(** ** Beyond the claims: the messages of a run are all different *)

Lemma append_inv_tail (a b t : string) : (a ++ t = b ++ t)%string -> a = b.
Proof.
  intros H. apply (f_equal list_ascii_of_string) in H.
  rewrite !list_ascii_app in H. apply app_inv_tail in H.
  rewrite <- (string_of_list_ascii_of_string a), <- (string_of_list_ascii_of_string b).
  rewrite H. reflexivity.
Qed.

Lemma to_int_proper (z : Z) :
  Z.to_int z <> Decimal.Pos Decimal.Nil /\ Z.to_int z <> Decimal.Neg Decimal.Nil.
Proof.
  destruct z as [|p|p]; cbn; split; try discriminate;
    intros [= H]; exact (DecimalPos.Unsigned.to_uint_nonnil p H).
Qed.

Lemma str_int_inj (a b : Z) : Py.str_int a = Py.str_int b -> a = b.
Proof.
  unfold Py.str_int. intros H.
  destruct (to_int_proper a) as [Ha1 Ha2], (to_int_proper b) as [Hb1 Hb2].
  assert (Ha := NilZero.isi _ Ha1 Ha2). assert (Hb := NilZero.isi _ Hb1 Hb2).
  rewrite H, Hb in Ha. injection Ha as Ha.
  rewrite <- (DecimalZ.of_to a), <- (DecimalZ.of_to b), Ha. reflexivity.
Qed.

Lemma encode_utf8_inj (a b : string) : Py.encode_utf8 a = Py.encode_utf8 b -> a = b.
Proof.
  unfold Py.encode_utf8. intros H.
  rewrite <- (string_of_list_byte_of_string a), <- (string_of_list_byte_of_string b), H.
  reflexivity.
Qed.

Lemma periodic_message_inj (c1 c2 n : Z) :
  periodic_message c1 n = periodic_message c2 n -> c1 = c2.
Proof.
  unfold periodic_message. intros H.
  apply encode_utf8_inj in H. cbn in H.
  injection H as H.
  apply append_inv_tail in H. apply str_int_inj. exact H.
Qed.

(** X10: the payloads sent in a run are pairwise different: the startup
    message is none of the periodic messages, and two periodic messages
    never carry the same number. *)
Theorem sent_payloads_are_distinct (e : Env) (n : nat) :
  NoDup (map fst (sends (trace_after e n))).
Proof.
  rewrite sends_after. cbn [map fst]. rewrite map_map.
  apply NoDup_cons. split.
  - intros Hin. apply list_elem_of_In, in_map_iff in Hin.
    destruct Hin as (c & Hc & _). cbn in Hc. discriminate Hc.
  - apply (NoDup_fmap_2_strong (fun c => fst (numbered 1 c))); [|apply NoDup_seq].
    intros x y _ _ H.
    change (periodic_message (Z.of_nat x) 1 = periodic_message (Z.of_nat y) 1) in H.
    apply periodic_message_inj in H. lia.
Qed.

End Script.

(** ** Round to nearest is a rounding *)

Local Open Scope Q_scope.

Lemma two_nonzero : ~ 2 == 0.
Proof. discriminate. Qed.

Lemma pow2_pos (k : Z) : 0 < 2 ^ k.
Proof. apply Qpower_0_lt. reflexivity. Qed.

Lemma pow2_split (a b : Z) : 2 ^ a == 2 ^ (a - b) * 2 ^ b.
Proof.
  rewrite <- Qpower_plus by exact two_nonzero.
  replace (a - b + b)%Z with a by lia. reflexivity.
Qed.

Lemma pow2_int (k : Z) : (0 <= k)%Z -> 2 ^ k == inject_Z (2 ^ k).
Proof. intros H. rewrite Zpower_Qpower by exact H. reflexivity. Qed.

Lemma pow2_le (a b : Z) : (a <= b)%Z -> 2 ^ a <= 2 ^ b.
Proof. intros H. apply Qpower_le_compat_l; [exact H | discriminate]. Qed.

(** Rounding to the nearest integer. *)

Lemma nearest_even_floor (s : Q) :
  (Qfloor s <= nearest_even s <= Qfloor s + 1)%Z.
Proof.
  unfold nearest_even.
  destruct (s - inject_Z (Qfloor s) ?= 1 # 2); [destruct (Z.even _)| |]; lia.
Qed.

Lemma nearest_even_exact (s : Q) :
  s == inject_Z (Qfloor s) -> nearest_even s = Qfloor s.
Proof.
  intros H. unfold nearest_even.
  assert (E : (s - inject_Z (Qfloor s) ?= 1 # 2) = Lt).
  { apply (proj1 (Qlt_alt _ _)). set (f := inject_Z (Qfloor s)) in *. lra. }
  rewrite E. reflexivity.
Qed.

Lemma nearest_even_mono (s t : Q) :
  s <= t -> (nearest_even s <= nearest_even t)%Z.
Proof.
  intros Hst.
  assert (Hf := Qfloor_resp_le s t Hst).
  assert (Hs := nearest_even_floor s). assert (Ht := nearest_even_floor t).
  destruct (Z.eq_dec (Qfloor s) (Qfloor t)) as [E | N]; [|lia].
  unfold nearest_even in *. rewrite E in *.
  destruct (Qcompare_spec (s - inject_Z (Qfloor t)) (1 # 2)) as [H1|H1|H1];
    destruct (Qcompare_spec (t - inject_Z (Qfloor t)) (1 # 2)) as [H2|H2|H2];
    try destruct (Z.even (Qfloor t)); try lia; exfalso; lra.
Qed.

Lemma nearest_even_int (s : Q) (z : Z) : s == inject_Z z -> nearest_even s = z.
Proof.
  intros H.
  assert (F : Qfloor s = z).
  { apply Z.le_antisymm.
    - rewrite <- (Qfloor_Z z). apply Qfloor_resp_le. rewrite H. apply Qle_refl.
    - rewrite <- (Qfloor_Z z) at 1. apply Qfloor_resp_le. rewrite H. apply Qle_refl. }
  rewrite nearest_even_exact; [exact F | rewrite F; exact H].
Qed.

Lemma nearest_even_ge (s : Q) (z : Z) : inject_Z z <= s -> (z <= nearest_even s)%Z.
Proof.
  intros H.
  assert (E := nearest_even_int (inject_Z z) z (Qeq_refl _)).
  assert (M := nearest_even_mono _ _ H). lia.
Qed.

Lemma nearest_even_le (s : Q) (z : Z) : s <= inject_Z z -> (nearest_even s <= z)%Z.
Proof.
  intros H.
  assert (E := nearest_even_int (inject_Z z) z (Qeq_refl _)).
  assert (M := nearest_even_mono _ _ H). lia.
Qed.

(** The binade. *)

Lemma Qlt_cross (a b c d : Z) :
  (0 < b)%Z -> (0 < d)%Z -> (a * d < c * b)%Z ->
  inject_Z a / inject_Z b < inject_Z c / inject_Z d.
Proof.
  intros Hb Hd H.
  assert (Hb' : 0 < inject_Z b) by (rewrite (Zlt_Qlt 0 b) in Hb; exact Hb).
  assert (Hd' : 0 < inject_Z d) by (rewrite (Zlt_Qlt 0 d) in Hd; exact Hd).
  apply Qlt_shift_div_l; [exact Hd'|].
  unfold Qdiv. rewrite <- Qmult_assoc, (Qmult_comm (/ _)), Qmult_assoc.
  apply Qlt_shift_div_r; [exact Hb'|].
  rewrite <- !inject_Z_mult, <- Zlt_Qlt. exact H.
Qed.

Lemma Qle_cross (a b c d : Z) :
  (0 < b)%Z -> (0 < d)%Z -> (a * d <= c * b)%Z ->
  inject_Z a / inject_Z b <= inject_Z c / inject_Z d.
Proof.
  intros Hb Hd H.
  assert (Hb' : 0 < inject_Z b) by (rewrite (Zlt_Qlt 0 b) in Hb; exact Hb).
  assert (Hd' : 0 < inject_Z d) by (rewrite (Zlt_Qlt 0 d) in Hd; exact Hd).
  apply Qle_shift_div_l; [exact Hd'|].
  unfold Qdiv. rewrite <- Qmult_assoc, (Qmult_comm (/ _)), Qmult_assoc.
  apply Qle_shift_div_r; [exact Hb'|].
  rewrite <- !inject_Z_mult, <- Zle_Qle. exact H.
Qed.

Lemma pow2_quot (a b : Z) :
  (0 <= a)%Z -> (0 <= b)%Z -> 2 ^ (a - b) == inject_Z (2 ^ a) / inject_Z (2 ^ b).
Proof.
  intros Ha Hb.
  rewrite <- !pow2_int by assumption.
  rewrite (pow2_split a b). field.
  assert (H := pow2_pos b). lra.
Qed.

Lemma binade_spec (x : Q) :
  0 < x -> 2 ^ binade x <= x /\ x < 2 ^ (binade x + 1).
Proof.
  intros Hx. destruct x as [n d].
  assert (Hn : (0 < n)%Z) by (unfold Qlt in Hx; cbn in Hx; lia).
  unfold binade. cbn [Qnum Qden].
  set (ln := Z.log2 n). set (ld := Z.log2 (Z.pos d)).
  assert (Sn := Z.log2_spec n Hn). fold ln in Sn.
  assert (Sd := Z.log2_spec (Z.pos d) ltac:(lia)). fold ld in Sd.
  assert (Pn : (0 <= ln)%Z) by apply Z.log2_nonneg.
  assert (Pd : (0 <= ld)%Z) by apply Z.log2_nonneg.
  assert (Pn' : (0 < 2 ^ ln)%Z) by (apply Z.pow_pos_nonneg; lia).
  assert (Pd' : (0 < 2 ^ ld)%Z) by (apply Z.pow_pos_nonneg; lia).
  rewrite !Z.pow_succ_r in * by assumption.
  assert (Lo : 2 ^ (ln - ld - 1) <= n # d).
  { replace (ln - ld - 1)%Z with (ln - (ld + 1))%Z by lia.
    rewrite pow2_quot, Qmake_Qdiv by lia.
    apply Qle_cross; [apply Z.pow_pos_nonneg; lia | lia |].
    rewrite Z.pow_add_r by lia. nia. }
  assert (Hi : n # d < 2 ^ (ln - ld + 1)).
  { replace (ln - ld + 1)%Z with (ln + 1 - ld)%Z by lia.
    rewrite pow2_quot, Qmake_Qdiv by lia.
    apply Qlt_cross; [lia | exact Pd' |].
    rewrite Z.pow_add_r by lia. nia. }
  destruct (Qle_bool (2 ^ (ln - ld)) (n # d)) eqn:E.
  - apply Qle_bool_iff in E. split; assumption.
  - split; [exact Lo|].
    replace (ln - ld - 1 + 1)%Z with (ln - ld)%Z by lia.
    apply Qnot_le_lt. intros H. apply Qle_bool_iff in H. congruence.
Qed.

Lemma binade_unique (x : Q) (e : Z) :
  0 < x -> 2 ^ e <= x -> x < 2 ^ (e + 1) -> binade x = e.
Proof.
  intros Hx Hlo Hhi.
  destruct (binade_spec x Hx) as [Blo Bhi].
  assert (H1 : (binade x < e + 1)%Z).
  { apply (Qpower_lt_compat_l_inv 2); [|reflexivity].
    eapply Qle_lt_trans; [exact Blo | exact Hhi]. }
  assert (H2 : (e < binade x + 1)%Z).
  { apply (Qpower_lt_compat_l_inv 2); [|reflexivity].
    eapply Qle_lt_trans; [exact Hlo | exact Bhi]. }
  lia.
Qed.

Lemma binade_mono (x y : Q) : 0 < x -> x <= y -> (binade x <= binade y)%Z.
Proof.
  intros Hx Hxy.
  destruct (binade_spec x Hx) as [Xlo _].
  destruct (binade_spec y ltac:(lra)) as [_ Yhi].
  assert (H : (binade x < binade y + 1)%Z).
  { apply (Qpower_lt_compat_l_inv 2); [|reflexivity]. lra. }
  lia.
Qed.

(** Rounding a positive number. *)

Section Precision.

Variable p : Z.
Hypothesis p_pos : (1 <= p)%Z.

Lemma scaled_bounds (x : Q) (e : Z) :
  2 ^ e <= x -> x <= 2 ^ (e + 1) ->
  inject_Z (2 ^ (p - 1)) <= x / 2 ^ (e - p + 1) /\
  x / 2 ^ (e - p + 1) <= inject_Z (2 ^ p).
Proof.
  intros Hlo Hhi.
  assert (U := pow2_pos (e - p + 1)).
  rewrite <- !pow2_int by lia.
  split.
  - apply Qle_shift_div_l; [exact U|].
    rewrite <- Qpower_plus by exact two_nonzero.
    replace (p - 1 + (e - p + 1))%Z with e by lia. exact Hlo.
  - apply Qle_shift_div_r; [exact U|].
    rewrite <- Qpower_plus by exact two_nonzero.
    replace (p + (e - p + 1))%Z with (e + 1)%Z by lia. exact Hhi.
Qed.

Lemma round_pos_bounds (x : Q) :
  0 < x ->
  2 ^ binade x <= round_pos p x /\ round_pos p x <= 2 ^ (binade x + 1).
Proof.
  intros Hx. destruct (binade_spec x Hx) as [Hlo Hhi].
  destruct (scaled_bounds x (binade x) Hlo ltac:(lra)) as [Slo Shi].
  unfold round_pos.
  set (u := (binade x - p + 1)%Z) in *.
  assert (U := pow2_pos u).
  apply nearest_even_ge in Slo. apply nearest_even_le in Shi.
  rewrite Zle_Qle in Slo, Shi.
  rewrite <- !pow2_int in Slo, Shi by lia.
  split.
  - rewrite (pow2_split (binade x) u).
    replace (binade x - u)%Z with (p - 1)%Z by (unfold u; lia).
    apply Qmult_le_compat_r; [exact Slo | lra].
  - rewrite (pow2_split (binade x + 1) u).
    replace (binade x + 1 - u)%Z with p by (unfold u; lia).
    apply Qmult_le_compat_r; [exact Shi | lra].
Qed.

Lemma round_pos_positive (x : Q) : 0 < x -> 0 < round_pos p x.
Proof.
  intros Hx. destruct (round_pos_bounds x Hx) as [H _].
  assert (P := pow2_pos (binade x)). lra.
Qed.

Lemma round_pos_mono (x y : Q) :
  0 < x -> x <= y -> round_pos p x <= round_pos p y.
Proof.
  intros Hx Hxy.
  assert (Hy : 0 < y) by lra.
  assert (Hb := binade_mono x y Hx Hxy).
  destruct (Z.eq_dec (binade x) (binade y)) as [E | N].
  - unfold round_pos. rewrite E.
    set (u := (binade y - p + 1)%Z).
    assert (U := pow2_pos u).
    apply Qmult_le_compat_r; [|lra].
    rewrite <- Zle_Qle. apply nearest_even_mono.
    apply Qmult_le_compat_r; [exact Hxy|].
    apply Qlt_le_weak, Qinv_lt_0_compat. exact U.
  - destruct (round_pos_bounds x Hx) as [_ Xhi].
    destruct (round_pos_bounds y Hy) as [Ylo _].
    assert (P := pow2_le (binade x + 1) (binade y) ltac:(lia)).
    lra.
Qed.

(** Rounding any number. *)

Lemma round_float_mono (x y : Q) : x <= y -> round_float p x <= round_float p y.
Proof.
  intros Hxy. unfold round_float.
  destruct x as [[|n|n] d], y as [[|m|m] e]; cbn [Qnum].
  all: try apply Qle_refl.
  all: try (exfalso; unfold Qle in Hxy; cbn in Hxy; lia).
  - apply Qlt_le_weak, round_pos_positive. reflexivity.
  - apply round_pos_mono; [reflexivity | exact Hxy].
  - assert (H := round_pos_positive (- (Z.neg n # d)) ltac:(reflexivity)). lra.
  - assert (H1 := round_pos_positive (- (Z.neg n # d)) ltac:(reflexivity)).
    assert (H2 := round_pos_positive (Z.pos m # e) ltac:(reflexivity)). lra.
  - assert (H := round_pos_mono (- (Z.neg m # e)) (- (Z.neg n # d))
                  ltac:(reflexivity) ltac:(lra)).
    lra.
Qed.

(** Powers of two are floats. *)
Lemma round_float_pow2 (k : Z) : round_float p (2 ^ k) == 2 ^ k.
Proof.
  assert (K := pow2_pos k).
  assert (R : round_float p (2 ^ k) = round_pos p (2 ^ k)).
  { unfold round_float. destruct (2 ^ k) as [[|n|n] d]; [| reflexivity |];
      exfalso; unfold Qlt in K; cbn in K; lia. }
  rewrite R. unfold round_pos.
  rewrite (binade_unique (2 ^ k) k K (Qle_refl _))
    by (apply Qpower_lt_compat_l; [lia | reflexivity]).
  assert (U := pow2_pos (k - p + 1)).
  rewrite (nearest_even_int _ (2 ^ (p - 1))).
  - rewrite <- pow2_int by lia.
    rewrite <- Qpower_plus by exact two_nonzero.
    replace (p - 1 + (k - p + 1))%Z with k by lia. reflexivity.
  - rewrite <- pow2_int by lia.
    rewrite (pow2_split k (k - p + 1)).
    replace (k - (k - p + 1))%Z with (p - 1)%Z by lia.
    field. lra.
Qed.

End Precision.

Lemma round_float_one (p : Z) : (1 <= p)%Z -> round_float p 1 == 1.
Proof. intros H. exact (round_float_pow2 p H 0). Qed.

Lemma round_float_two (p : Z) : (1 <= p)%Z -> round_float p 2 == 2.
Proof. intros H. exact (round_float_pow2 p H 1). Qed.

Local Close Scope Q_scope.

(** IEEE double precision, the [float] of CPython: 53 significant bits. *)
#[global] Instance binary64 : Rounding :=
  {| rnd := round_float 53;
     rnd_mono := round_float_mono 53 ltac:(lia);
     rnd_one := round_float_one 53 ltac:(lia);
     rnd_two := round_float_two 53 ltac:(lia) |}.

Example double_of_1_3 : round_float 53 (13 # 10)%Q = 0x1.4cccccccccccd%xQ.
Proof. vm_compute. reflexivity. Qed.

Example float_tie_goes_to_even :
  (round_float 53 (1 + (1 # 9007199254740992))%Q == 1)%Q.
Proof. vm_compute. reflexivity. Qed.

(** ** Runs on IEEE doubles *)

(** With [now] at the double nearest to 0.3 and the clock at the double
    nearest to 1.3, the exact difference is above 1, the float difference is
    1, and the pass does not send. *)
Example float_difference_decides :
  let w := world_after tenths 0 in
  (transmit_interval < monotonic_at tenths (clock_reads w) - now w)%Q /\
  (elapsed tenths w == 1)%Q /\
  transmitted tenths w = false.
Proof.
  intros w. split; [vm_compute; reflexivity|].
  split; vm_compute; reflexivity.
Qed.



Example quiet_sends_5 :
  map fst (sends (trace_after quiet 5)) =
  map Py.encode_utf8
    ["Startup message 0 from node 1"; "msg num 1 node 1"; "msg num 2 node 1"]%string.
Proof. reflexivity. Qed.

Lemma packet_frame_has_two_lines_witness :
  texts (frame (world_of (loop_body (busy hello_packet (-42)) (world_after quiet 0)))) =
  ["b'hello'"; "RSSI: -42"]%string.
Proof.
  exact (proj1 (proj2 (proj2
    (packet_frame_has_two_lines (busy hello_packet (-42)) (world_after quiet 0)
       hello_packet eq_refl)))).
Defined.

Lemma no_packet_frame_is_background_witness :
  frame (world_of (loop_body quiet (world_after quiet 2))) = [background].
Proof.
  exact (proj1 (no_packet_frame_is_background quiet (world_after quiet 2) eq_refl)).
Defined.


Lemma shown_for_any_destination_witness :
  let e := busy hello_packet (-42) in
  let w := world_after e 0 in
  node w = 1 /\
  take 1 hello_packet = [x07] /\
  texts (frame (world_of (loop_body e w))) = ["b'hello'"; "RSSI: -42"]%string /\
  refreshes (events_of (loop_body e w)) = 1%nat.
Proof.
  intros e w. split; [reflexivity|]. split; [reflexivity|].
  exact (shown_for_any_destination e w x07 x02 x00 x00 (Py.encode_utf8 "hello") eq_refl).
Defined.

Lemma hello_scenario_witness :
  let e := busy hello_packet (-42) in
  let r := loop_body e (world_after e 1) in
  texts (frame (world_of r)) = ["b'hello'"; "RSSI: -42"]%string /\
  led_value (world_of r) = true.
Proof.
  intros e r.
  destruct (hello_scenario e (world_after e 1) x07 x02 x00 x00 eq_refl) as (Ht & _ & Hled).
  split; [exact Ht | exact Hled].
Defined.

Lemma header_reaches_only_the_log_witness :
  let w := world_after quiet 0 in
  world_of (loop_body (hello_from x01 x02) w) = world_of (loop_body (hello_from xff x09) w) /\
  text_lines (frame (world_of (loop_body (hello_from x01 x02) w))) =
    [Label "b'hello'" 16777215 0 10; Label "RSSI: -42" 16777215 0 25].
Proof.
  intros w.
  destruct (header_reaches_only_the_log (hello_from x01 x02) (hello_from xff x09) w
              _ _ (-42) (fun k => eq_refl) eq_refl eq_refl eq_refl)
    as (Hw & _ & Hlines & _).
  split; [exact Hw | exact Hlines].
Defined.

Lemma radio_does_not_change_transmits_witness :
  sends (trace_after (hello_from x01 x02) 4) = sends (trace_after quiet 4) /\
  map fst (sends (trace_after quiet 4)) =
    map Py.encode_utf8
      ["Startup message 0 from node 1"; "msg num 1 node 1"; "msg num 2 node 1"]%string.
Proof.
  split; [|reflexivity].
  exact (proj1 (radio_does_not_change_transmits (hello_from x01 x02) quiet 4
                  (fun k => eq_refl))).
Defined.

Lemma clock_does_not_change_frames_witness :
  frame (world_after (busy hello_packet (-42)) 3) =
  frame (world_after
           {| monotonic_at := monotonic_at quiet;
              receive_at := receive_at (busy hello_packet (-42)) |} 3).
Proof.
  exact (proj2 (clock_does_not_change_frames (busy hello_packet (-42))
                  {| monotonic_at := monotonic_at quiet;
                     receive_at := receive_at (busy hello_packet (-42)) |} 3
                  (fun k => eq_refl))).
Defined.

Lemma transmit_rate_is_bounded_witness :
  counter (world_after quiet 5) = 2 /\
  (inject_Z (counter (world_after quiet 5)) * transmit_interval <=
   now (world_after quiet 5) - monotonic_at quiet 0)%Q.
Proof.
  split; [reflexivity|].
  exact (proj1 (transmit_rate_is_bounded quiet 5 quiet_monotone)).
Defined.

Lemma transmit_recurs_witness :
  exists n, (7 <= n)%nat /\ transmitted quiet (world_after quiet n) = true.
Proof.
  exact (transmit_recurs quiet 7 quiet_monotone quiet_unbounded).
Defined.

Lemma short_packet_shows_empty_payload_witness :
  texts (frame (world_of (loop_body (busy [x01; x02] (-90)) (world_after quiet 0)))) =
  ["b''"; "RSSI: -90"]%string.
Proof.
  exact (proj1 (short_packet_shows_empty_payload (busy [x01; x02] (-90))
                  (world_after quiet 0) [x01; x02] eq_refl ltac:(cbn; lia))).
Defined.

Example escaped_payload :
  texts (frame (world_of (loop_body (busy [x00; x00; x00; x00; x68; x0a; xff; x27] 5)
                            (world_after quiet 0)))) =
  [("b" ++ Py.chr x22 ++ "h\n\xff'" ++ Py.chr x22)%string; "RSSI: 5"%string].
Proof. reflexivity. Qed.
